(** * A node-based segment tree: range sums and point updates

    Shallow embedding of [segment_tree_node.py].  Python integers are
    unbounded, so they are [Z].  A [SegmentTreeNode] object is a record whose
    two child fields are optional, exactly as in the class.  The tree built
    by [_build] owns every node once (fresh objects, no sharing), therefore
    the in-place writes of [_update] are modelled by state passing: the
    function returns the node as it is after the call.  Exceptions are the
    [Raise] results of a small error monad. *)

From Stdlib Require Import ZArith Lia.
From stdpp Require Import base option list.

Local Open Scope Z_scope.

(** ** Outcomes of a call *)

Inductive exn : Type :=
| ValueError      (* raised by [SegmentTree.__init__] *)
| IndexError      (* list subscript out of range *)
| RecursionError. (* the interpreter's recursion limit is exceeded *)

Inductive result (A : Type) : Type :=
| Ok (a : A)
| Raise (e : exn).
Arguments Ok {A} a.
Arguments Raise {A} e.

#[global] Instance result_ret : MRet result := fun _ a => Ok a.
#[global] Instance result_bind : MBind result := fun _ _ f m =>
  match m with
  | Ok a => f a
  | Raise e => Raise e
  end.

(** ** class SegmentTreeNode *)

#[local] Unset Elimination Schemes.
Inductive SegmentTreeNode : Type :=
  mkNode {
    start : Z;
    end_ : Z;
    value : Z;
    left : option SegmentTreeNode;
    right : option SegmentTreeNode
  }.
#[local] Set Elimination Schemes.

(** [SegmentTreeNode(start, end, value)]: both children are [None]. *)
Definition new_node (s e v : Z) : SegmentTreeNode := mkNode s e v None None.

(** Induction over a node and the nodes below it. *)
Section node_induction.
Variable P : SegmentTreeNode -> Prop.
Hypothesis Hnode : forall s e v l r,
  (forall c, l = Some c -> P c) ->
  (forall c, r = Some c -> P c) ->
  P (mkNode s e v l r).

Fixpoint node_ind' (n : SegmentTreeNode) : P n :=
  match n with
  | mkNode s e v l r =>
    Hnode s e v l r
      (match l as o return forall c, o = Some c -> P c with
       | Some c' => fun c H =>
           match H in _ = y return match y with Some z => P z | None => True end
           with eq_refl => node_ind' c' end
       | None => fun c H =>
           match H in _ = y return match y with Some z => P z | None => True end
           with eq_refl => I end
       end)
      (match r as o return forall c, o = Some c -> P c with
       | Some c' => fun c H =>
           match H in _ = y return match y with Some z => P z | None => True end
           with eq_refl => node_ind' c' end
       | None => fun c H =>
           match H in _ = y return match y with Some z => P z | None => True end
           with eq_refl => I end
       end)
  end.
End node_induction.

(** ** class SegmentTree *)

(** [nums[i]] on a Python list: a negative index counts from the end, an
    index outside [-len, len-1] raises [IndexError]. *)
Definition getitem (nums : list Z) (i : Z) : result Z :=
  let j := if i <? 0 then i + Z.of_nat (length nums) else i in
  if j <? 0 then Raise IndexError
  else match nums !! Z.to_nat j with
       | Some x => Ok x
       | None => Raise IndexError
       end.

(** [_build(nums, start, end)].  [fuel] is the number of nested calls the
    interpreter still allows; running out raises [RecursionError]. *)
Fixpoint _build (fuel : nat) (nums : list Z) (start end_ : Z)
  : result SegmentTreeNode :=
  match fuel with
  | O => Raise RecursionError
  | S fuel =>
    if start =? end_ then
      x ← getitem nums start;
      Ok (new_node start end_ x)
    else
      let mid := (start + end_) `div` 2 in
      l ← _build fuel nums start mid;
      r ← _build fuel nums (mid + 1) end_;
      Ok (mkNode start end_ (value l + value r) (Some l) (Some r))
  end.

(** [node.value if node else 0] *)
Definition value_or_0 (node : option SegmentTreeNode) : Z :=
  match node with
  | Some n => value n
  | None => 0
  end.

(** [_update(node, index, new_value)]: the node after the call. *)
Fixpoint _update (node : SegmentTreeNode) (index new_value : Z)
  : SegmentTreeNode :=
  match node with
  | mkNode s e v l r =>
    if (s =? e) && (e =? index) then mkNode s e new_value l r
    else
      let '(l', r') :=
        match l with
        | Some ln =>
          if index <=? end_ ln then (Some (_update ln index new_value), r)
          else match r with
               | Some rn => (l, Some (_update rn index new_value))
               | None => (l, r)
               end
        | None =>
          match r with
          | Some rn => (l, Some (_update rn index new_value))
          | None => (l, r)
          end
        end in
      mkNode s e (value_or_0 l' + value_or_0 r') l' r'
  end.

(** [_query] on a node that is not [None]. *)
Fixpoint _query_node (node : SegmentTreeNode) (left right : Z) : Z :=
  match node with
  | mkNode s e v l r =>
    if (e <? left) || (s >? right) then 0
    else if (left <=? s) && (e <=? right) then v
    else
      match l with Some c => _query_node c left right | None => 0 end
      + match r with Some c => _query_node c left right | None => 0 end
  end.

(** [_query(node, left, right)] *)
Definition _query (node : option SegmentTreeNode) (left right : Z) : Z :=
  match node with
  | None => 0
  | Some n => _query_node n left right
  end.

Record SegmentTree : Type := mkSegmentTree { root : SegmentTreeNode }.

(** [SegmentTree(nums)] *)
Definition __init__ (fuel : nat) (nums : list Z) : result SegmentTree :=
  match nums with
  | [] => Raise ValueError
  | _ =>
    r ← _build fuel nums 0 (Z.of_nat (length nums) - 1);
    Ok (mkSegmentTree r)
  end.

(** [self.update(index, new_value)]: returns [None] and the tree as it is
    after the call. *)
Definition update (self : SegmentTree) (index new_value : Z)
  : result (unit * SegmentTree) :=
  Ok (tt, mkSegmentTree (_update (root self) index new_value)).

(** [self.query(left, right)] *)
Definition query (self : SegmentTree) (left right : Z) : result Z :=
  Ok (_query (Some (root self)) left right).

(** ** The reference array

    The tree keeps no copy of the sequence.  The properties below compare
    it with a plain list that receives the same updates. *)

Definition sum_list_Z (l : list Z) : Z := foldr Z.add 0 l.

(** Linear scan: the sum of the elements whose index [j] (counted from
    [i] for the head) satisfies [lo <= j <= hi]. *)
Fixpoint sum_from (i : Z) (arr : list Z) (lo hi : Z) : Z :=
  match arr with
  | [] => 0
  | x :: xs =>
    (if (lo <=? i) && (i <=? hi) then x else 0) + sum_from (i + 1) xs lo hi
  end.

Definition range_sum (arr : list Z) (lo hi : Z) : Z := sum_from 0 arr lo hi.

(** [arr[a:b+1]] for [0 <= a]. *)
Definition slice (arr : list Z) (a b : Z) : list Z :=
  take (Z.to_nat (b + 1 - a)) (drop (Z.to_nat a) arr).

(** [arr[index] = new_value] for an index inside the list. *)
Definition set_item (arr : list Z) (u : Z * Z) : list Z :=
  <[Z.to_nat u.1 := u.2]> arr.

(** The reference array after a sequence of [(index, new_value)] writes. *)
Definition ref_updates (arr : list Z) (us : list (Z * Z)) : list Z :=
  foldl set_item arr us.

(** The value that the latest write to index [i] in [us] stored, if any. *)
Fixpoint latest (us : list (Z * Z)) (i : Z) : option Z :=
  match us with
  | [] => None
  | (j, v) :: us =>
    match latest us i with
    | Some w => Some w
    | None => if j =? i then Some v else None
    end
  end.

(** The current element at index [i]: the original one, overridden by the
    latest write to [i]. *)
Definition current (nums : list Z) (us : list (Z * Z)) (i : Z) : option Z :=
  match latest us i with
  | Some v => Some v
  | None => nums !! Z.to_nat i
  end.

(** The same sequence as calls of [update], one after the other. *)
Fixpoint run_updates (self : SegmentTree) (us : list (Z * Z))
  : result SegmentTree :=
  match us with
  | [] => Ok self
  | (index, new_value) :: us =>
    r ← update self index new_value;
    run_updates r.2 us
  end.

(** The recursion limit [fuel] is enough to build a tree over [n]
    elements: [n <= 2^(fuel-1)]. *)
Definition enough_depth (fuel n : nat) : Prop :=
  Z.of_nat n <= 2 ^ (Z.of_nat fuel - 1).

(** An update is valid for a sequence of length [n] when its index lies in
    [0, n-1]. *)
Definition valid_update (n : nat) (u : Z * Z) : Prop :=
  0 <= u.1 <= Z.of_nat n - 1.

(** ** Positions in the tree *)

Inductive dir : Type := L | R.

#[global] Instance dir_eq_dec : EqDecision dir.
Proof. solve_decision. Defined.

Definition child (d : dir) (n : SegmentTreeNode) : option SegmentTreeNode :=
  match d with
  | L => left n
  | R => right n
  end.

(** The node reached from [n] by following [p], if there is one. *)
Fixpoint subtree (p : list dir) (n : SegmentTreeNode)
  : option SegmentTreeNode :=
  match p with
  | [] => Some n
  | d :: p =>
    match child d n with
    | Some c => subtree p c
    | None => None
    end
  end.

(** The positions of the nodes that a call [_update(node, index, _)]
    visits: the same tests as [_update], recording the branch taken. *)
Fixpoint update_path (node : SegmentTreeNode) (index : Z) : list dir :=
  match node with
  | mkNode s e v l r =>
    if (s =? e) && (e =? index) then []
    else
      match l with
      | Some ln =>
        if index <=? end_ ln then L :: update_path ln index
        else match r with
             | Some rn => R :: update_path rn index
             | None => []
             end
      | None =>
        match r with
        | Some rn => R :: update_path rn index
        | None => []
        end
      end
  end.

(** The tree with every [value] field blanked: what [start], [end] and the
    child links alone determine. *)
Fixpoint skeleton (n : SegmentTreeNode) : SegmentTreeNode :=
  match n with
  | mkNode s e v l r =>
    mkNode s e 0
      (match l with Some c => Some (skeleton c) | None => None end)
      (match r with Some c => Some (skeleton c) | None => None end)
  end.

(** All the nodes of a tree, the root first. *)
Fixpoint nodes (n : SegmentTreeNode) : list SegmentTreeNode :=
  match n with
  | mkNode s e v l r =>
    n :: (match l with Some c => nodes c | None => [] end)
      ++ (match r with Some c => nodes c | None => [] end)
  end.

(** The invariant of one node against the reference array: an internal
    node has both children and holds their sum, a leaf holds the element
    at its index. *)
Definition node_ok (arr : list Z) (n : SegmentTreeNode) : Prop :=
  match left n, right n with
  | Some l, Some r => value n = value l + value r
  | None, None => start n = end_ n /\ 0 <= start n /\
                  arr !! Z.to_nat (start n) = Some (value n)
  | _, _ => False
  end.

(** The part of the invariant that needs no reference array: a node with
    two children holds their sum. *)
Definition internal_ok (n : SegmentTreeNode) : Prop :=
  match left n, right n with
  | Some l, Some r => value n = value l + value r
  | _, _ => True
  end.

(** A tree that represents the slice [s..e] of [arr] with the shape that
    [_build] gives it. *)
Inductive Rep (arr : list Z) : Z -> Z -> SegmentTreeNode -> Prop :=
| Rep_leaf i x :
    0 <= i ->
    arr !! Z.to_nat i = Some x ->
    Rep arr i i (new_node i i x)
| Rep_node s e l r :
    s < e ->
    Rep arr s ((s + e) `div` 2) l ->
    Rep arr ((s + e) `div` 2 + 1) e r ->
    Rep arr s e (mkNode s e (value l + value r) (Some l) (Some r)).

(** The values of the leaves, from left to right. *)
Fixpoint leaves (n : SegmentTreeNode) : list Z :=
  match n with
  | mkNode s e v None None => [v]
  | mkNode s e v l r =>
    (match l with Some c => leaves c | None => [] end)
      ++ (match r with Some c => leaves c | None => [] end)
  end.

(** The number of nodes on the longest way from a node down to a leaf:
    the depth of the recursion of [_build] that made it. *)
Fixpoint height (n : SegmentTreeNode) : nat :=
  match n with
  | mkNode s e v l r =>
    S (Nat.max (match l with Some c => height c | None => 0%nat end)
               (match r with Some c => height c | None => 0%nat end))
  end.

(** * Properties *)

Example scenario_1 :
  (t ← __init__ 3 [1; 3; 5]; query t 0 2) = Ok 9.
Proof. reflexivity. Qed.

Example scenario_2 :
  (t ← __init__ 3 [1; 3; 5]; r ← update t 1 2; query r.2 0 2) = Ok 8.
Proof. reflexivity. Qed.

Example scenario_3 :
  (t ← __init__ 3 [1; 2; 3]; Ok (value (root t))) = Ok 6.
Proof. reflexivity. Qed.

Example scenario_4 :
  (t ← __init__ 3 [1; 2; 3]; r ← update t 1 5; query r.2 0 2) = Ok 9.
Proof. reflexivity. Qed.

Example scenario_5 :
  (t ← __init__ 5 [1; 3; 5; 7; 9]; query t 1 3) = Ok 15.
Proof. reflexivity. Qed.

(** [_query] as the source writes it, with the test for [None] first. *)
Lemma _query_unfold node lo hi :
  _query node lo hi =
  match node with
  | None => 0
  | Some n =>
    if (end_ n <? lo) || (start n >? hi) then 0
    else if (lo <=? start n) && (end_ n <=? hi) then value n
    else _query (left n) lo hi + _query (right n) lo hi
  end.
Proof. destruct node as [[s e v l r]|]; reflexivity. Qed.

(** ** Sums over the reference array *)

Ltac zbool :=
  repeat match goal with
  | |- context [?a >? ?b] => rewrite (Z.gtb_ltb a b)
  | |- context [?a <=? ?b] => destruct (Z.leb_spec a b)
  | |- context [?a <? ?b] => destruct (Z.ltb_spec a b)
  | |- context [?a =? ?b] => destruct (Z.eqb_spec a b)
  end; simpl.

Section sums.
Implicit Types (arr : list Z) (i lo hi : Z).

Lemma sum_from_split arr : forall i lo hi lo1 hi1 lo2 hi2,
  (forall j, i <= j < i + Z.of_nat (length arr) ->
     (lo <= j <= hi) <-> (lo1 <= j <= hi1) \/ (lo2 <= j <= hi2)) ->
  (forall j, i <= j < i + Z.of_nat (length arr) ->
     ~ ((lo1 <= j <= hi1) /\ (lo2 <= j <= hi2))) ->
  sum_from i arr lo hi = sum_from i arr lo1 hi1 + sum_from i arr lo2 hi2.
Proof.
  induction arr as [|x xs IH]; intros i lo hi lo1 hi1 lo2 hi2 Hcov Hdisj;
    [reflexivity|].
  cbn [sum_from length] in *.
  rewrite (IH (i + 1) lo hi lo1 hi1 lo2 hi2).
  - specialize (Hcov i). specialize (Hdisj i). zbool; lia.
  - intros j Hj. apply Hcov. lia.
  - intros j Hj. apply Hdisj. lia.
Qed.

Lemma sum_from_empty arr : forall i lo hi,
  (forall j, i <= j < i + Z.of_nat (length arr) -> ~ (lo <= j <= hi)) ->
  sum_from i arr lo hi = 0.
Proof.
  induction arr as [|x xs IH]; intros i lo hi Hout; [reflexivity|].
  cbn [sum_from length] in *.
  rewrite IH.
  - specialize (Hout i). zbool; lia.
  - intros j Hj. apply Hout. lia.
Qed.

Lemma sum_from_ext arr i lo hi lo' hi' :
  (forall j, i <= j < i + Z.of_nat (length arr) ->
     (lo <= j <= hi) <-> (lo' <= j <= hi')) ->
  sum_from i arr lo hi = sum_from i arr lo' hi'.
Proof.
  intros Hsame.
  rewrite (sum_from_split arr i lo hi lo' hi' 1 0).
  - rewrite (sum_from_empty arr i 1 0); [lia|]. intros j _. lia.
  - intros j Hj. specialize (Hsame j Hj). lia.
  - intros j _. lia.
Qed.

Lemma sum_from_all arr : forall i lo hi,
  lo <= i -> i + Z.of_nat (length arr) - 1 <= hi ->
  sum_from i arr lo hi = sum_list_Z arr.
Proof.
  induction arr as [|x xs IH]; intros i lo hi Hlo Hhi; [reflexivity|].
  cbn [sum_from length sum_list_Z foldr] in *.
  rewrite IH by lia. fold (sum_list_Z xs). zbool; lia.
Qed.

Lemma sum_from_single arr : forall i (k : nat) x,
  arr !! k = Some x ->
  sum_from i arr (i + Z.of_nat k) (i + Z.of_nat k) = x.
Proof.
  induction arr as [|y ys IH]; intros i k x Hk; [discriminate|].
  cbn [sum_from]. destruct k as [|k]; cbn in Hk.
  - injection Hk as ->. rewrite sum_from_empty.
    + zbool; lia.
    + intros j Hj. lia.
  - replace (i + Z.of_nat (S k)) with ((i + 1) + Z.of_nat k) by lia.
    rewrite (IH (i + 1) k x Hk). zbool; lia.
Qed.

Lemma sum_from_insert arr : forall i (k : nat) v lo hi,
  ~ (lo <= i + Z.of_nat k <= hi) ->
  sum_from i (<[k := v]> arr) lo hi = sum_from i arr lo hi.
Proof.
  induction arr as [|y ys IH]; intros i k v lo hi Hout; [reflexivity|].
  destruct k as [|k]; cbn [sum_from].
  - change (<[0%nat := v]> (y :: ys)) with (v :: ys). cbn [sum_from].
    zbool; lia.
  - change (<[S k := v]> (y :: ys)) with (y :: <[k := v]> ys).
    cbn [sum_from]. rewrite IH; [reflexivity|lia].
Qed.

Lemma sum_from_slice arr : forall i lo hi,
  i <= lo ->
  sum_from i arr lo hi =
  sum_list_Z (take (Z.to_nat (hi + 1 - lo)) (drop (Z.to_nat (lo - i)) arr)).
Proof.
  induction arr as [|x xs IH]; intros i lo hi Hlo.
  - rewrite drop_nil, take_nil. reflexivity.
  - cbn [sum_from]. destruct (Z.eq_dec lo i) as [->|Hne].
    + replace (Z.to_nat (i - i)) with 0%nat by lia. rewrite drop_0.
      destruct (Z.le_gt_cases i hi) as [Hle|Hgt].
      * replace (Z.to_nat (hi + 1 - i)) with (S (Z.to_nat (hi - i))) by lia.
        cbn [take sum_list_Z foldr]. fold (sum_list_Z (take (Z.to_nat (hi - i)) xs)).
        rewrite (sum_from_ext xs (i + 1) i hi (i + 1) hi) by (intros; lia).
        rewrite (IH (i + 1) (i + 1) hi) by lia.
        replace (Z.to_nat (i + 1 - (i + 1))) with 0%nat by lia. rewrite drop_0.
        replace (hi + 1 - (i + 1)) with (hi - i) by lia.
        zbool; lia.
      * replace (Z.to_nat (hi + 1 - i)) with 0%nat by lia.
        rewrite sum_from_empty by (intros; lia).
        cbn. zbool; lia.
    + replace (Z.to_nat (lo - i)) with (S (Z.to_nat (lo - (i + 1)))) by lia.
      cbn [drop]. rewrite <- (IH (i + 1) lo hi) by lia.
      zbool; lia.
Qed.

Lemma range_sum_all arr :
  range_sum arr 0 (Z.of_nat (length arr) - 1) = sum_list_Z arr.
Proof. apply sum_from_all; lia. Qed.

Lemma range_sum_slice arr a b :
  0 <= a -> range_sum arr a b = sum_list_Z (slice arr a b).
Proof.
  intros Ha. unfold range_sum, slice.
  rewrite (sum_from_slice arr 0 a b Ha). by rewrite Z.sub_0_r.
Qed.

Lemma range_sum_single arr a x :
  0 <= a -> arr !! Z.to_nat a = Some x -> range_sum arr a a = x.
Proof.
  intros Ha Hx. unfold range_sum.
  pose proof (sum_from_single arr 0 (Z.to_nat a) x Hx) as H.
  by rewrite Z2Nat.id, Z.add_0_l in H.
Qed.

Lemma range_sum_insert arr a v lo hi :
  0 <= a -> ~ (lo <= a <= hi) ->
  range_sum (<[Z.to_nat a := v]> arr) lo hi = range_sum arr lo hi.
Proof.
  intros Ha Hout. apply sum_from_insert. lia.
Qed.
End sums.

(** ** The representation invariant *)

Lemma mid_bounds s e : s < e -> s <= (s + e) `div` 2 < e.
Proof.
  intros Hlt.
  pose proof (Z.div_mod (s + e) 2 ltac:(lia)) as Hdm.
  pose proof (Z.mod_pos_bound (s + e) 2 ltac:(lia)) as Hm.
  lia.
Qed.

Lemma Rep_bounds arr s e t :
  Rep arr s e t ->
  start t = s /\ end_ t = e /\ 0 <= s <= e /\ e < Z.of_nat (length arr).
Proof.
  induction 1 as [i x Hi Hx|s e l r Hlt Hl IHl Hr IHr]; cbn.
  - apply lookup_lt_Some in Hx. lia.
  - pose proof (mid_bounds s e Hlt). lia.
Qed.

Lemma Rep_value arr s e t :
  Rep arr s e t -> value t = range_sum arr s e.
Proof.
  induction 1 as [i x Hi Hx|s e l r Hlt Hl IHl Hr IHr]; cbn.
  - symmetry. by apply range_sum_single.
  - rewrite IHl, IHr. symmetry.
    pose proof (mid_bounds s e Hlt).
    apply sum_from_split; intros j Hj; lia.
Qed.

Lemma Rep_insert_outside arr s e t a v :
  Rep arr s e t -> 0 <= a -> ~ (s <= a <= e) ->
  Rep (<[Z.to_nat a := v]> arr) s e t.
Proof.
  induction 1 as [i x Hi Hx|s e l r Hlt Hl IHl Hr IHr]; intros Ha Hout.
  - apply Rep_leaf; [done|].
    rewrite list_lookup_insert_ne; [done|lia].
  - pose proof (mid_bounds s e Hlt).
    apply Rep_node; [done|apply IHl|apply IHr]; lia.
Qed.

Lemma getitem_lookup (nums : list Z) i x :
  0 <= i -> nums !! Z.to_nat i = Some x -> getitem nums i = Ok x.
Proof.
  intros Hi Hx. unfold getitem.
  assert ((i <? 0) = false) as Hneg by (apply Z.ltb_ge; lia).
  rewrite Hneg. cbv zeta. by rewrite Hneg, Hx.
Qed.

(** [_build] returns, and what it returns represents the slice, as soon as
    the recursion limit allows a depth of one more than the binary
    logarithm of the number of indices. *)
Lemma build_Rep nums : forall fuel s e,
  0 <= s <= e -> e < Z.of_nat (length nums) ->
  e - s + 1 <= 2 ^ (Z.of_nat fuel - 1) ->
  exists t, _build fuel nums s e = Ok t /\ Rep nums s e t.
Proof.
  induction fuel as [|fuel IH]; intros s e Hse He Hfuel.
  { rewrite Z.pow_neg_r in Hfuel; lia. }
  cbn [_build]. destruct (Z.eqb_spec s e) as [<-|Hne].
  - destruct (lookup_lt_is_Some_2 nums (Z.to_nat s) ltac:(lia)) as [x Hx].
    exists (new_node s s x). rewrite (getitem_lookup nums s x) by (done || lia).
    split; [reflexivity|]. apply Rep_leaf; [lia|done].
  - pose proof (mid_bounds s e ltac:(lia)) as Hmid.
    pose proof (Z.div_mod (s + e) 2 ltac:(lia)) as Hdm.
    pose proof (Z.mod_pos_bound (s + e) 2 ltac:(lia)) as Hm.
    replace (Z.of_nat (S fuel) - 1) with (Z.of_nat fuel) in Hfuel by lia.
    destruct fuel as [|fuel']; [cbn in Hfuel; lia|].
    replace (Z.of_nat (S fuel')) with (Z.succ (Z.of_nat (S fuel') - 1))
      in Hfuel by lia.
    rewrite Z.pow_succ_r in Hfuel by lia.
    destruct (IH s ((s + e) `div` 2)) as (l & -> & Hl); [lia..|].
    destruct (IH ((s + e) `div` 2 + 1) e) as (r & -> & Hr); [lia..|].
    eexists. split; [reflexivity|]. apply Rep_node; [lia|done..].
Qed.

(** A valid update leaves a tree that represents the updated array. *)
Lemma update_Rep arr s e t index new_value :
  Rep arr s e t -> s <= index <= e ->
  Rep (<[Z.to_nat index := new_value]> arr) s e (_update t index new_value).
Proof.
  induction 1 as [i x Hi Hx|s e l r Hlt Hl IHl Hr IHr]; intros Hin.
  - assert (index = i) as -> by lia.
    cbn. rewrite Z.eqb_refl. cbn.
    apply Rep_leaf; [done|].
    apply list_lookup_insert_eq. by apply lookup_lt_Some in Hx.
  - pose proof (mid_bounds s e Hlt) as Hmid.
    destruct (Rep_bounds _ _ _ _ Hl) as (_ & Hel & Hs0 & _).
    cbn [_update]. destruct (Z.eqb_spec s e) as [|_]; [lia|].
    cbn [andb]. rewrite Hel.
    destruct (Z.leb_spec index ((s + e) `div` 2)) as [Hle|Hgt]; cbn.
    + apply Rep_node; [done|apply IHl; lia|].
      apply Rep_insert_outside; [done|lia..].
    + apply Rep_node; [done| |apply IHr; lia].
      apply Rep_insert_outside; [done|lia..].
Qed.

(** [_query] on a represented slice [s..e] is the sum over the part of
    [lo..hi] that lies in [s..e], for every pair [lo], [hi]. *)
Lemma query_Rep arr s e t lo hi :
  Rep arr s e t ->
  _query_node t lo hi = range_sum arr (Z.max s lo) (Z.min e hi).
Proof.
  induction 1 as [i x Hi Hx|s e l r Hlt Hl IHl Hr IHr].
  - cbn [_query_node new_node].
    destruct ((i <? lo) || (i >? hi)) eqn:Hno.
    { symmetry. apply sum_from_empty. intros j Hj. revert Hno. zbool; lia. }
    replace ((lo <=? i) && (i <=? hi)) with true by (revert Hno; zbool; lia).
    replace (Z.max i lo) with i by (revert Hno; zbool; lia).
    replace (Z.min i hi) with i by (revert Hno; zbool; lia).
    symmetry. by apply range_sum_single.
  - pose proof (mid_bounds s e Hlt) as Hmid.
    cbn [_query_node].
    destruct ((e <? lo) || (s >? hi)) eqn:Hno.
    { symmetry. apply sum_from_empty. intros j Hj. revert Hno. zbool; lia. }
    destruct ((lo <=? s) && (e <=? hi)) eqn:Hfull.
    { replace (Z.max s lo) with s by (revert Hfull; zbool; lia).
      replace (Z.min e hi) with e by (revert Hfull; zbool; lia).
      rewrite (Rep_value _ _ _ _ Hl), (Rep_value _ _ _ _ Hr).
      symmetry. apply sum_from_split; intros j Hj; lia. }
    rewrite IHl, IHr. symmetry.
    apply sum_from_split; intros j Hj; lia.
Qed.

Lemma Rep_nodes_ok arr s e t :
  Rep arr s e t -> Forall (node_ok arr) (nodes t).
Proof.
  induction 1 as [i x Hi Hx|s e l r Hlt Hl IHl Hr IHr]; cbn [nodes new_node].
  - repeat constructor; cbn; done.
  - constructor; [reflexivity|]. by apply Forall_app.
Qed.

Lemma length_ref_updates us : forall arr,
  length (ref_updates arr us) = length arr.
Proof.
  induction us as [|u us IH]; intros arr; [reflexivity|].
  cbn. rewrite IH. apply length_insert.
Qed.

Lemma run_updates_Rep us : forall arr s e self,
  Rep arr s e (root self) ->
  Forall (fun u : Z * Z => s <= u.1 <= e) us ->
  exists self', run_updates self us = Ok self' /\
                Rep (ref_updates arr us) s e (root self').
Proof.
  induction us as [|[index new_value] us IH]; intros arr s e self HRep Hvalid.
  - by exists self.
  - apply Forall_cons in Hvalid as [Hu Hvalid]. cbn in Hu.
    cbn. apply IH; [|done]. cbn.
    by apply update_Rep.
Qed.

(** Construction followed by valid updates: both return, and the tree
    represents the reference array that received the same writes. *)
Lemma reachable_Rep fuel nums us :
  nums <> [] -> enough_depth fuel (length nums) ->
  Forall (valid_update (length nums)) us ->
  exists t0 t,
    __init__ fuel nums = Ok t0 /\ run_updates t0 us = Ok t /\
    Rep nums 0 (Z.of_nat (length nums) - 1) (root t0) /\
    Rep (ref_updates nums us) 0 (Z.of_nat (length nums) - 1) (root t).
Proof.
  intros Hne Hfuel Hvalid.
  assert (0 < length nums)%nat as Hlen by (destruct nums; [done|cbn; lia]).
  destruct (build_Rep nums fuel 0 (Z.of_nat (length nums) - 1))
    as (r & Hbuild & HRep); [unfold enough_depth in Hfuel; lia..|].
  destruct (run_updates_Rep us nums 0 (Z.of_nat (length nums) - 1)
              (mkSegmentTree r) HRep Hvalid) as (t & Hrun & HRep').
  exists (mkSegmentTree r), t. repeat split; try done.
  unfold __init__. destruct nums; [done|]. by rewrite Hbuild.
Qed.

(** ** What [_update] touches *)

(** The branch that [_update] takes depends on [start], [end] and the child
    links only, and the call changes none of them. *)
Lemma update_end_ t index new_value :
  end_ (_update t index new_value) = end_ t.
Proof.
  destruct t as [s e v [ln|] [rn|]]; cbn;
    destruct ((s =? e) && (e =? index)); try reflexivity;
    destruct (index <=? end_ ln); reflexivity.
Qed.

Lemma update_skeleton index new_value : forall t,
  skeleton (_update t index new_value) = skeleton t.
Proof.
  induction t as [s e v l r IHl IHr] using node_ind'.
  cbn [_update]. destruct ((s =? e) && (e =? index)); [reflexivity|].
  destruct l as [ln|], r as [rn|]; cbn;
    try destruct (index <=? end_ ln); cbn;
    rewrite ?(IHl ln eq_refl), ?(IHr rn eq_refl); reflexivity.
Qed.

Lemma update_idempotent index new_value : forall t,
  _update (_update t index new_value) index new_value
  = _update t index new_value.
Proof.
  induction t as [s e v l r IHl IHr] using node_ind'.
  cbn [_update]. destruct ((s =? e) && (e =? index)) eqn:Hleaf.
  { cbn [_update]. by rewrite Hleaf. }
  destruct l as [ln|], r as [rn|]; cbn [_update value_or_0].
  - destruct (index <=? end_ ln) eqn:Hle; cbn [_update]; rewrite Hleaf.
    + rewrite update_end_, Hle, (IHl ln eq_refl). reflexivity.
    + rewrite Hle, (IHr rn eq_refl). reflexivity.
  - destruct (index <=? end_ ln) eqn:Hle; cbn [_update]; rewrite Hleaf.
    + rewrite update_end_, Hle, (IHl ln eq_refl). reflexivity.
    + rewrite Hle. reflexivity.
  - rewrite Hleaf, (IHr rn eq_refl). reflexivity.
  - rewrite Hleaf. reflexivity.
Qed.

(** A position that is not on the path of the call holds the same node
    before and after it. *)
Lemma update_off_path index new_value : forall t p,
  ~ p `prefix_of` update_path t index ->
  subtree p (_update t index new_value) = subtree p t.
Proof.
  induction t as [s e v l r IHl IHr] using node_ind'.
  intros [|d p] Hoff; [destruct Hoff; apply prefix_nil|].
  revert Hoff. cbn [_update update_path].
  destruct ((s =? e) && (e =? index)); [reflexivity|].
  destruct l as [ln|], r as [rn|];
    try destruct (index <=? end_ ln); intros Hoff;
    destruct d; cbn; try reflexivity;
    (apply (IHl ln eq_refl) || apply (IHr rn eq_refl));
    intros Hp; apply Hoff; by apply prefix_cons.
Qed.

(** On a represented slice the path of a valid index ends at the leaf of
    that index, which holds the new value after the call. *)
Lemma update_path_leaf arr s e t index new_value :
  Rep arr s e t -> s <= index <= e ->
  (exists x, subtree (update_path t index) t = Some (new_node index index x))
  /\ subtree (update_path t index) (_update t index new_value)
     = Some (new_node index index new_value).
Proof.
  induction 1 as [i x Hi Hx|s e l r Hlt Hl IHl Hr IHr]; intros Hin.
  - assert (index = i) as -> by lia.
    cbn. rewrite Z.eqb_refl. cbn. split; [by exists x|done].
  - pose proof (mid_bounds s e Hlt) as Hmid.
    destruct (Rep_bounds _ _ _ _ Hl) as (_ & Hel & _).
    cbn [update_path _update]. destruct (Z.eqb_spec s e) as [|_]; [lia|].
    cbn [andb]. rewrite Hel.
    destruct (Z.leb_spec index ((s + e) `div` 2)) as [Hle|Hgt]; cbn.
    + apply IHl. lia.
    + apply IHr. lia.
Qed.

(** An index beyond the slice is routed to the last leaf, which does not
    match it; the closing assignment of [_update] then gives that leaf the
    value 0.  The call has the effect of writing 0 at the last index. *)
Lemma update_above arr s e t index new_value :
  Rep arr s e t -> e < index ->
  _update t index new_value = _update t e 0.
Proof.
  induction 1 as [i x Hi Hx|s e l r Hlt Hl IHl Hr IHr]; intros Habove.
  - cbn. rewrite Z.eqb_refl.
    destruct (Z.eqb_spec i index) as [|_]; [lia|]. reflexivity.
  - pose proof (mid_bounds s e Hlt) as Hmid.
    destruct (Rep_bounds _ _ _ _ Hl) as (_ & Hel & _).
    cbn [_update]. destruct (Z.eqb_spec s e) as [|_]; [lia|].
    cbn [andb]. rewrite Hel.
    destruct (Z.leb_spec index ((s + e) `div` 2)) as [|_]; [lia|].
    destruct (Z.leb_spec e ((s + e) `div` 2)) as [|_]; [lia|].
    by rewrite IHr.
Qed.

(** An index before the slice is routed to the first leaf in the same
    way. *)
Lemma update_below arr s e t index new_value :
  Rep arr s e t -> index < s ->
  _update t index new_value = _update t s 0.
Proof.
  induction 1 as [i x Hi Hx|s e l r Hlt Hl IHl Hr IHr]; intros Hbelow.
  - cbn. rewrite Z.eqb_refl.
    destruct (Z.eqb_spec i index) as [|_]; [lia|]. reflexivity.
  - pose proof (mid_bounds s e Hlt) as Hmid.
    destruct (Rep_bounds _ _ _ _ Hl) as (_ & Hel & _).
    cbn [_update]. destruct (Z.eqb_spec s e) as [|_]; [lia|].
    cbn [andb]. rewrite Hel.
    destruct (Z.leb_spec index ((s + e) `div` 2)) as [_|]; [|lia].
    destruct (Z.leb_spec s ((s + e) `div` 2)) as [_|]; [|lia].
    by rewrite IHl.
Qed.

Lemma node_ok_internal arr n : node_ok arr n -> internal_ok n.
Proof.
  unfold node_ok, internal_ok. by destruct (left n), (right n).
Qed.

(** Whatever the index, [_update] on a represented slice leaves every
    node that has two children equal to their sum. *)
Lemma update_internal_ok arr s e t index new_value :
  Rep arr s e t ->
  Forall internal_ok (nodes (_update t index new_value)).
Proof.
  intros HRep.
  destruct (Rep_bounds _ _ _ _ HRep) as (_ & _ & Hse & _).
  assert (exists arr' i v, s <= i <= e /\
            _update t index new_value = _update t i v /\
            arr' = <[Z.to_nat i := v]> arr) as (arr' & i & v & Hi & -> & ->).
  { destruct (Z.lt_ge_cases index s) as [Hlo|Hlo].
    - exists (<[Z.to_nat s := 0]> arr), s, 0.
      split; [lia|]. split; [by eapply update_below|done].
    - destruct (Z.lt_ge_cases e index) as [Hhi|Hhi].
      + exists (<[Z.to_nat e := 0]> arr), e, 0.
        split; [lia|]. split; [by eapply update_above|done].
      + exists (<[Z.to_nat index := new_value]> arr), index, new_value.
        split; [lia|done]. }
  eapply Forall_impl.
  - eapply Rep_nodes_ok. by apply update_Rep.
  - apply node_ok_internal.
Qed.

(** The reference array holds the current elements. *)
Lemma ref_updates_current us : forall nums i,
  Forall (valid_update (length nums)) us -> 0 <= i ->
  ref_updates nums us !! Z.to_nat i = current nums us i.
Proof.
  induction us as [|[j v] us IH]; intros nums i Hvalid Hi; [reflexivity|].
  apply Forall_cons in Hvalid as [Hu Hvalid].
  unfold valid_update in Hu. cbn in Hu.
  cbn [ref_updates foldl]. fold (ref_updates (set_item nums (j, v)) us).
  rewrite IH; [|by unfold set_item; rewrite length_insert|done].
  unfold current. cbn [latest]. destruct (latest us i) as [w|]; [done|].
  unfold set_item. cbn. destruct (Z.eqb_spec j i) as [->|Hne].
  - apply list_lookup_insert_eq. lia.
  - apply list_lookup_insert_ne. lia.
Qed.

(** * The properties of the specification *)

(** C1. On a tree constructed from a non-empty sequence and after any
    sequence of valid updates, [query a b] with [0 <= a <= b <= n-1]
    returns the sum of the current elements at the indices [a] to [b]
    inclusive; the current element at an index is the original one
    overridden by the latest update of that index. *)
Theorem C1_query_is_range_sum fuel nums us a b :
  nums <> [] -> enough_depth fuel (length nums) ->
  Forall (valid_update (length nums)) us ->
  0 <= a <= b -> b <= Z.of_nat (length nums) - 1 ->
  exists t0 t,
    __init__ fuel nums = Ok t0 /\ run_updates t0 us = Ok t /\
    (forall i, 0 <= i ->
       ref_updates nums us !! Z.to_nat i = current nums us i) /\
    query t a b = Ok (sum_list_Z (slice (ref_updates nums us) a b)).
Proof.
  intros Hne Hfuel Hvalid Hab Hb.
  destruct (reachable_Rep fuel nums us Hne Hfuel Hvalid)
    as (t0 & t & Hinit & Hrun & _ & HRep).
  exists t0, t. repeat split; try done.
  - intros i Hi. by apply ref_updates_current.
  - unfold query. cbn [_query]. f_equal.
    rewrite (query_Rep _ _ _ _ a b HRep).
    replace (Z.max 0 a) with a by lia.
    replace (Z.min (Z.of_nat (length nums) - 1) b) with b by lia.
    apply range_sum_slice. lia.
Qed.

Lemma C1_witness :
  exists t0 t,
    __init__ 3 [1; 3; 5] = Ok t0 /\ run_updates t0 [(1, 2); (1, 4)] = Ok t /\
    (forall i, 0 <= i ->
       ref_updates [1; 3; 5] [(1, 2); (1, 4)] !! Z.to_nat i
       = current [1; 3; 5] [(1, 2); (1, 4)] i) /\
    query t 1 2
    = Ok (sum_list_Z (slice (ref_updates [1; 3; 5] [(1, 2); (1, 4)]) 1 2)).
Proof.
  apply (C1_query_is_range_sum 3 [1; 3; 5] [(1, 2); (1, 4)] 1 2).
  - discriminate.
  - unfold enough_depth. simpl. lia.
  - repeat constructor; unfold valid_update; simpl; lia.
  - lia.
  - simpl. lia.
Defined.

(** C2. Immediately after construction from a non-empty sequence, the
    root's value is the sum of all the elements. *)
Theorem C2_root_value_is_total fuel nums :
  nums <> [] -> enough_depth fuel (length nums) ->
  exists t, __init__ fuel nums = Ok t /\ value (root t) = sum_list_Z nums.
Proof.
  intros Hne Hfuel.
  destruct (reachable_Rep fuel nums [] Hne Hfuel (Forall_nil_2 _))
    as (t0 & t & Hinit & _ & HRep & _).
  exists t0. split; [done|].
  rewrite (Rep_value _ _ _ _ HRep). apply range_sum_all.
Qed.

Lemma C2_witness :
  exists t, __init__ 3 [1; 2; 3] = Ok t /\
            value (root t) = sum_list_Z [1; 2; 3].
Proof.
  apply (C2_root_value_is_total 3 [1; 2; 3]).
  - discriminate.
  - unfold enough_depth. simpl. lia.
Defined.

(** C3. After construction and any sequence of valid updates, every
    internal node holds the sum of its two children's values, every leaf
    holds the current element at its index, and the root holds the sum
    of all the current elements. *)
Theorem C3_sum_invariant fuel nums us :
  nums <> [] -> enough_depth fuel (length nums) ->
  Forall (valid_update (length nums)) us ->
  exists t0 t,
    __init__ fuel nums = Ok t0 /\ run_updates t0 us = Ok t /\
    (forall i, 0 <= i ->
       ref_updates nums us !! Z.to_nat i = current nums us i) /\
    Forall (node_ok (ref_updates nums us)) (nodes (root t)) /\
    value (root t) = sum_list_Z (ref_updates nums us).
Proof.
  intros Hne Hfuel Hvalid.
  destruct (reachable_Rep fuel nums us Hne Hfuel Hvalid)
    as (t0 & t & Hinit & Hrun & _ & HRep).
  exists t0, t. repeat split; try done.
  - intros i Hi. by apply ref_updates_current.
  - by eapply Rep_nodes_ok.
  - rewrite (Rep_value _ _ _ _ HRep).
    rewrite <- (length_ref_updates us nums). apply range_sum_all.
Qed.

Lemma C3_witness :
  exists t0 t,
    __init__ 3 [1; 2; 3] = Ok t0 /\ run_updates t0 [(1, 5); (0, 4)] = Ok t /\
    (forall i, 0 <= i ->
       ref_updates [1; 2; 3] [(1, 5); (0, 4)] !! Z.to_nat i
       = current [1; 2; 3] [(1, 5); (0, 4)] i) /\
    Forall (node_ok (ref_updates [1; 2; 3] [(1, 5); (0, 4)]))
           (nodes (root t)) /\
    value (root t) = sum_list_Z (ref_updates [1; 2; 3] [(1, 5); (0, 4)]).
Proof.
  apply (C3_sum_invariant 3 [1; 2; 3] [(1, 5); (0, 4)]).
  - discriminate.
  - unfold enough_depth. simpl. lia.
  - repeat constructor; unfold valid_update; simpl; lia.
Defined.

(** C4 as stated fails: [update(5, 7)] on the tree of [[1, 2, 3]], whose
    indices are 0 to 2, returns and raises nothing. *)
Lemma C4_counterexample :
  (exists r, (t ← __init__ 3 [1; 2; 3]; update t 5 7) = Ok r) /\
  ~ (exists e, (t ← __init__ 3 [1; 2; 3]; update t 5 7) = Raise e).
Proof.
  split; [eexists; reflexivity|]. intros [e He]. discriminate.
Qed.

(** C4, amended.  [update] validates nothing and raises nothing: for a
    tree over [0, n-1] and an index outside [0, n-1] the call returns, with
    no value; it changes no [start], [end] or child link, and every
    internal node holds the sum of its two children afterwards. *)
Theorem C4_update_out_of_range_returns fuel nums us index new_value :
  nums <> [] -> enough_depth fuel (length nums) ->
  Forall (valid_update (length nums)) us ->
  ~ valid_update (length nums) (index, new_value) ->
  exists t0 t t',
    __init__ fuel nums = Ok t0 /\ run_updates t0 us = Ok t /\
    update t index new_value = Ok (tt, t') /\
    skeleton (root t') = skeleton (root t) /\
    Forall internal_ok (nodes (root t')).
Proof.
  intros Hne Hfuel Hvalid _.
  destruct (reachable_Rep fuel nums us Hne Hfuel Hvalid)
    as (t0 & t & Hinit & Hrun & _ & HRep).
  exists t0, t, (mkSegmentTree (_update (root t) index new_value)).
  repeat split; try done.
  - apply update_skeleton.
  - by eapply update_internal_ok.
Qed.

Lemma C4_witness :
  exists t0 t t',
    __init__ 3 [1; 2; 3] = Ok t0 /\ run_updates t0 [(1, 5)] = Ok t /\
    update t 5 7 = Ok (tt, t') /\
    skeleton (root t') = skeleton (root t) /\
    Forall internal_ok (nodes (root t')).
Proof.
  apply (C4_update_out_of_range_returns 3 [1; 2; 3] [(1, 5)] 5 7).
  - discriminate.
  - unfold enough_depth. simpl. lia.
  - repeat constructor; unfold valid_update; simpl; lia.
  - unfold valid_update. simpl. lia.
Defined.

(** C5, at the inputs [update(-1, 7)] and [update(5, 7)] on the tree of
    [[1, 2, 3]]: each call completes without an error and leaves a leaf
    with the value 0 (index 0, respectively index 2), although no element
    of the sequence was written.  The leaf invariant is broken against
    the unchanged reference array, and the queries that follow are off. *)
Theorem C5_update_out_of_range_corrupts :
  exists t t' t'',
    __init__ 3 [1; 2; 3] = Ok t /\
    Forall (node_ok [1; 2; 3]) (nodes (root t)) /\
    update t (-1) 7 = Ok (tt, t') /\
    ~ Forall (node_ok [1; 2; 3]) (nodes (root t')) /\
    query t 0 0 = Ok 1 /\ query t' 0 0 = Ok 0 /\ query t' 0 2 = Ok 5 /\
    update t 5 7 = Ok (tt, t'') /\
    update t 5 7 = update t 2 0 /\
    query t 2 2 = Ok 3 /\ query t'' 2 2 = Ok 0 /\ query t'' 0 2 = Ok 3.
Proof.
  do 3 eexists. split; [reflexivity|]. split.
  { cbn. repeat (apply Forall_cons; split); try apply Forall_nil_2;
      cbn; repeat split; (done || lia). }
  split; [reflexivity|]. split; [|repeat split].
  intros Hall. cbn in Hall.
  apply Forall_cons in Hall as [_ Hall].
  apply Forall_cons in Hall as [_ Hall].
  apply Forall_cons in Hall as [Hleaf _].
  cbn in Hleaf. destruct Hleaf as (_ & _ & Hx). discriminate.
Qed.

(** C6. Construction raises [ValueError] on the empty sequence, and on
    every non-empty sequence it returns a tree whose root covers
    [0, n-1]. *)
Theorem C6_construct fuel nums :
  (nums = [] -> __init__ fuel nums = Raise ValueError) /\
  (nums <> [] -> enough_depth fuel (length nums) ->
   exists t, __init__ fuel nums = Ok t /\
             start (root t) = 0 /\
             end_ (root t) = Z.of_nat (length nums) - 1).
Proof.
  split.
  - intros ->. reflexivity.
  - intros Hne Hfuel.
    destruct (reachable_Rep fuel nums [] Hne Hfuel (Forall_nil_2 _))
      as (t0 & t & Hinit & _ & HRep & _).
    exists t0. split; [done|].
    destruct (Rep_bounds _ _ _ _ HRep) as (Hs & He & _). done.
Qed.

Lemma C6_witness :
  __init__ 0 [] = Raise ValueError /\
  exists t, __init__ 3 [1; 2; 3] = Ok t /\
            start (root t) = 0 /\
            end_ (root t) = Z.of_nat (length [1; 2; 3]) - 1.
Proof.
  split.
  - apply (C6_construct 0 []). reflexivity.
  - apply (C6_construct 3 [1; 2; 3]).
    + discriminate.
    + unfold enough_depth. simpl. lia.
Defined.

(** C7 as stated fails: [query(2, 0)] on the tree of [[1, 3, 5]] returns
    0 and raises nothing. *)
Lemma C7_counterexample :
  (t ← __init__ 3 [1; 3; 5]; query t 2 0) = Ok 0 /\
  ~ (exists e, (t ← __init__ 3 [1; 3; 5]; query t 2 0) = Raise e).
Proof. split; [reflexivity|]. intros [e He]. discriminate. Qed.

(** C7, amended.  On a tree constructed from a non-empty sequence and
    after any sequence of valid updates, [query left right] with
    [left > right] raises no error: it returns 0. *)
Theorem C7_reversed_range_returns_0 fuel nums us lo hi :
  nums <> [] -> enough_depth fuel (length nums) ->
  Forall (valid_update (length nums)) us ->
  lo > hi ->
  exists t0 t,
    __init__ fuel nums = Ok t0 /\ run_updates t0 us = Ok t /\
    query t lo hi = Ok 0.
Proof.
  intros Hne Hfuel Hvalid Hrev.
  destruct (reachable_Rep fuel nums us Hne Hfuel Hvalid)
    as (t0 & t & Hinit & Hrun & _ & HRep).
  exists t0, t. repeat split; try done.
  unfold query. cbn [_query]. f_equal.
  rewrite (query_Rep _ _ _ _ lo hi HRep).
  apply sum_from_empty. intros j Hj. lia.
Qed.

Lemma C7_witness :
  exists t0 t,
    __init__ 3 [1; 3; 5] = Ok t0 /\ run_updates t0 [(1, 2)] = Ok t /\
    query t 2 0 = Ok 0.
Proof.
  apply (C7_reversed_range_returns_0 3 [1; 3; 5] [(1, 2)] 2 0).
  - discriminate.
  - unfold enough_depth. simpl. lia.
  - repeat constructor; unfold valid_update; simpl; lia.
  - lia.
Defined.

(** C8. For every pair of integers [left <= right], inside [0, n-1] or
    not, [query left right] returns the sum of the current elements whose
    index lies in both [left..right] and [0..n-1]; it returns 0 when no
    index does. *)
Theorem C8_query_any_range fuel nums us lo hi :
  nums <> [] -> enough_depth fuel (length nums) ->
  Forall (valid_update (length nums)) us ->
  lo <= hi ->
  exists t0 t,
    __init__ fuel nums = Ok t0 /\ run_updates t0 us = Ok t /\
    (forall i, 0 <= i ->
       ref_updates nums us !! Z.to_nat i = current nums us i) /\
    query t lo hi = Ok (range_sum (ref_updates nums us) lo hi) /\
    (hi < 0 \/ Z.of_nat (length nums) - 1 < lo -> query t lo hi = Ok 0).
Proof.
  intros Hne Hfuel Hvalid Hle.
  destruct (reachable_Rep fuel nums us Hne Hfuel Hvalid)
    as (t0 & t & Hinit & Hrun & _ & HRep).
  exists t0, t. repeat split; try done.
  - intros i Hi. by apply ref_updates_current.
  - unfold query. cbn [_query]. f_equal.
    rewrite (query_Rep _ _ _ _ lo hi HRep).
    apply sum_from_ext. rewrite length_ref_updates. intros j Hj. lia.
  - intros Hout. unfold query. cbn [_query]. f_equal.
    rewrite (query_Rep _ _ _ _ lo hi HRep).
    apply sum_from_empty. rewrite length_ref_updates. intros j Hj. lia.
Qed.

Lemma C8_witness :
  exists t0 t,
    __init__ 3 [1; 3; 5] = Ok t0 /\ run_updates t0 [(1, 2)] = Ok t /\
    (forall i, 0 <= i ->
       ref_updates [1; 3; 5] [(1, 2)] !! Z.to_nat i
       = current [1; 3; 5] [(1, 2)] i) /\
    query t (-4) 1 = Ok (range_sum (ref_updates [1; 3; 5] [(1, 2)]) (-4) 1) /\
    (1 < 0 \/ Z.of_nat (length [1; 3; 5]) - 1 < -4 -> query t (-4) 1 = Ok 0).
Proof.
  apply (C8_query_any_range 3 [1; 3; 5] [(1, 2)] (-4) 1).
  - discriminate.
  - unfold enough_depth. simpl. lia.
  - repeat constructor; unfold valid_update; simpl; lia.
  - lia.
Defined.

(** C9. Calling [update index new_value] twice in succession leaves the
    same tree, node for node and value for value, as calling it once;
    this holds for every tree and every index. *)
Theorem C9_update_twice self index new_value :
  (r ← update self index new_value; update r.2 index new_value)
  = update self index new_value.
Proof.
  unfold update. cbn. by rewrite update_idempotent.
Qed.

(** C10. For a valid index, [update] returns no value; the nodes it
    visits are those on the path from the root to the leaf of range
    [index, index], which holds the new value afterwards; no [start],
    [end] or child link changes anywhere; and every position off that path
    holds the very same node as before. *)
Theorem C10_update_frame fuel nums us index new_value :
  nums <> [] -> enough_depth fuel (length nums) ->
  Forall (valid_update (length nums)) us ->
  valid_update (length nums) (index, new_value) ->
  exists t0 t t',
    __init__ fuel nums = Ok t0 /\ run_updates t0 us = Ok t /\
    update t index new_value = Ok (tt, t') /\
    (exists x, subtree (update_path (root t) index) (root t)
               = Some (new_node index index x)) /\
    subtree (update_path (root t) index) (root t')
    = Some (new_node index index new_value) /\
    skeleton (root t') = skeleton (root t) /\
    (forall p, ~ p `prefix_of` update_path (root t) index ->
               subtree p (root t') = subtree p (root t)).
Proof.
  intros Hne Hfuel Hvalid Hidx.
  destruct (reachable_Rep fuel nums us Hne Hfuel Hvalid)
    as (t0 & t & Hinit & Hrun & _ & HRep).
  exists t0, t, (mkSegmentTree (_update (root t) index new_value)).
  destruct (update_path_leaf _ _ _ _ index new_value HRep Hidx)
    as [Hleaf Hleaf'].
  repeat split; try done.
  - apply update_skeleton.
  - intros p Hp. by apply update_off_path.
Qed.

Lemma C10_witness :
  exists t0 t t',
    __init__ 3 [1; 3; 5] = Ok t0 /\ run_updates t0 [(0, 4)] = Ok t /\
    update t 1 2 = Ok (tt, t') /\
    (exists x, subtree (update_path (root t) 1) (root t)
               = Some (new_node 1 1 x)) /\
    subtree (update_path (root t) 1) (root t') = Some (new_node 1 1 2) /\
    skeleton (root t') = skeleton (root t) /\
    (forall p, ~ p `prefix_of` update_path (root t) 1 ->
               subtree p (root t') = subtree p (root t)).
Proof.
  apply (C10_update_frame 3 [1; 3; 5] [(0, 4)] 1 2).
  - discriminate.
  - unfold enough_depth. simpl. lia.
  - repeat constructor; unfold valid_update; simpl; lia.
  - unfold valid_update. simpl. lia.
Defined.

(** * Further properties of the code *)

(** ** Helper lemmas *)

(** The array and the range determine the tree. *)
Lemma Rep_functional arr s e t :
  Rep arr s e t -> forall t', Rep arr s e t' -> t = t'.
Proof.
  induction 1 as [i x Hi Hx|s e l r Hlt Hl IHl Hr IHr]; intros t' H'.
  - inversion H' as [i' x' Hi' Hx' | s' e' l' r' Hlt' Hl' Hr']; subst.
    + congruence.
    + lia.
  - inversion H' as [i' x' Hi' Hx' | s' e' l' r' Hlt' Hl' Hr']; subst.
    + lia.
    + by rewrite (IHl _ Hl'), (IHr _ Hr').
Qed.

Lemma sum_from_insert_in arr : forall i (k : nat) v old lo hi,
  arr !! k = Some old -> lo <= i + Z.of_nat k <= hi ->
  sum_from i (<[k := v]> arr) lo hi = sum_from i arr lo hi + (v - old).
Proof.
  induction arr as [|y ys IH]; intros i k v old lo hi Hk Hin; [discriminate|].
  destruct k as [|k]; cbn in Hk.
  - injection Hk as ->.
    change (<[0%nat := v]> (old :: ys)) with (v :: ys). cbn [sum_from].
    zbool; lia.
  - change (<[S k := v]> (y :: ys)) with (y :: <[k := v]> ys).
    cbn [sum_from]. rewrite (IH (i + 1) k v old lo hi Hk); lia.
Qed.

Lemma run_updates_app us1 : forall self us2,
  run_updates self (us1 ++ us2)
  = (t ← run_updates self us1; run_updates t us2).
Proof.
  induction us1 as [|[i v] us1 IH]; intros self us2; [reflexivity|].
  cbn. apply IH.
Qed.

Lemma valid_update_lookup (nums : list Z) us i :
  Forall (valid_update (length nums)) us ->
  0 <= i <= Z.of_nat (length nums) - 1 ->
  exists x, current nums us i = Some x
            /\ ref_updates nums us !! Z.to_nat i = Some x.
Proof.
  intros Hvalid Hi.
  destruct (lookup_lt_is_Some_2 (ref_updates nums us) (Z.to_nat i)) as [x Hx].
  { rewrite length_ref_updates. lia. }
  exists x. split; [|done].
  rewrite <- Hx. symmetry. apply ref_updates_current; [done|lia].
Qed.

(** ** Queries *)

(** X1. A query for the single index [i] returns the current element at [i]. *)
Theorem query_point fuel nums us i :
  nums <> [] -> enough_depth fuel (length nums) ->
  Forall (valid_update (length nums)) us ->
  0 <= i <= Z.of_nat (length nums) - 1 ->
  exists t0 t x,
    __init__ fuel nums = Ok t0 /\ run_updates t0 us = Ok t /\
    current nums us i = Some x /\ query t i i = Ok x.
Proof.
  intros Hne Hfuel Hvalid Hi.
  destruct (reachable_Rep fuel nums us Hne Hfuel Hvalid)
    as (t0 & t & Hinit & Hrun & _ & HRep).
  destruct (valid_update_lookup nums us i Hvalid Hi) as (x & Hcur & Hx).
  exists t0, t, x. repeat split; try done.
  unfold query. cbn [_query]. f_equal.
  rewrite (query_Rep _ _ _ _ i i HRep).
  replace (Z.max 0 i) with i by lia.
  replace (Z.min (Z.of_nat (length nums) - 1) i) with i by lia.
  apply range_sum_single; [lia|done].
Qed.

Lemma query_point_witness :
  exists t0 t x,
    __init__ 3 [1; 3; 5] = Ok t0 /\ run_updates t0 [(1, 2); (1, 4)] = Ok t /\
    current [1; 3; 5] [(1, 2); (1, 4)] 1 = Some x /\ query t 1 1 = Ok x.
Proof.
  apply (query_point 3 [1; 3; 5] [(1, 2); (1, 4)] 1).
  - discriminate.
  - unfold enough_depth. simpl. lia.
  - repeat constructor; unfold valid_update; simpl; lia.
  - simpl. lia.
Defined.

(** X2. Two queries over adjacent ranges add up to the query over their
    union, wherever the ranges lie. *)
Theorem query_adjacent fuel nums us a b c :
  nums <> [] -> enough_depth fuel (length nums) ->
  Forall (valid_update (length nums)) us ->
  a <= b -> b <= c ->
  exists t0 t q1 q2,
    __init__ fuel nums = Ok t0 /\ run_updates t0 us = Ok t /\
    query t a b = Ok q1 /\ query t (b + 1) c = Ok q2 /\
    query t a c = Ok (q1 + q2).
Proof.
  intros Hne Hfuel Hvalid Hab Hbc.
  destruct (reachable_Rep fuel nums us Hne Hfuel Hvalid)
    as (t0 & t & Hinit & Hrun & _ & HRep).
  exists t0, t. do 2 eexists. repeat split; try done.
  unfold query. cbn [_query]. f_equal.
  rewrite !(query_Rep _ _ _ _ _ _ HRep).
  apply sum_from_split; intros j Hj; lia.
Qed.

Lemma query_adjacent_witness :
  exists t0 t q1 q2,
    __init__ 4 [1; 3; 5; 7; 9] = Ok t0 /\ run_updates t0 [(2, 6)] = Ok t /\
    query t (-1) 1 = Ok q1 /\ query t (1 + 1) 7 = Ok q2 /\
    query t (-1) 7 = Ok (q1 + q2).
Proof.
  apply (query_adjacent 4 [1; 3; 5; 7; 9] [(2, 6)] (-1) 1 7).
  - discriminate.
  - unfold enough_depth. simpl. lia.
  - repeat constructor; unfold valid_update; simpl; lia.
  - lia.
  - lia.
Defined.

(** X3. A valid [update index new_value] shifts every later query whose range
    contains [index] by the difference between the new and the old
    element, and leaves every other query as it was. *)
Theorem update_then_query fuel nums us index new_value :
  nums <> [] -> enough_depth fuel (length nums) ->
  Forall (valid_update (length nums)) us ->
  valid_update (length nums) (index, new_value) ->
  exists t0 t t' old,
    __init__ fuel nums = Ok t0 /\ run_updates t0 us = Ok t /\
    update t index new_value = Ok (tt, t') /\
    current nums us index = Some old /\
    forall lo hi q,
      query t lo hi = Ok q ->
      query t' lo hi
      = Ok (q + if (lo <=? index) && (index <=? hi)
                then new_value - old else 0).
Proof.
  intros Hne Hfuel Hvalid Hidx.
  destruct (reachable_Rep fuel nums us Hne Hfuel Hvalid)
    as (t0 & t & Hinit & Hrun & _ & HRep).
  unfold valid_update in Hidx. cbn in Hidx.
  destruct (valid_update_lookup nums us index Hvalid Hidx)
    as (old & Hcur & Hold).
  exists t0, t, (mkSegmentTree (_update (root t) index new_value)), old.
  repeat split; try done.
  intros lo hi q Hq. unfold query in *. cbn [_query root] in *.
  injection Hq as <-. f_equal.
  pose proof (update_Rep _ _ _ _ index new_value HRep Hidx) as HRep'.
  rewrite (query_Rep _ _ _ _ lo hi HRep), (query_Rep _ _ _ _ lo hi HRep').
  unfold range_sum.
  destruct ((lo <=? index) && (index <=? hi)) eqn:Hin.
  - apply sum_from_insert_in; [done|]. revert Hin. zbool; lia.
  - rewrite sum_from_insert; [lia|]. revert Hin. zbool; lia.
Qed.

Lemma update_then_query_witness :
  exists t0 t t' old,
    __init__ 3 [1; 3; 5] = Ok t0 /\ run_updates t0 [(0, 4)] = Ok t /\
    update t 1 2 = Ok (tt, t') /\
    current [1; 3; 5] [(0, 4)] 1 = Some old /\
    forall lo hi q,
      query t lo hi = Ok q ->
      query t' lo hi
      = Ok (q + if (lo <=? 1) && (1 <=? hi) then 2 - old else 0).
Proof.
  apply (update_then_query 3 [1; 3; 5] [(0, 4)] 1 2).
  - discriminate.
  - unfold enough_depth. simpl. lia.
  - repeat constructor; unfold valid_update; simpl; lia.
  - unfold valid_update. simpl. lia.
Defined.

(** ** How construction and updates compose *)

(** X4. Constructing from [nums] and then applying valid updates gives the
    very tree that construction gives from the updated sequence. *)
Theorem updates_then_construct fuel nums us :
  nums <> [] -> enough_depth fuel (length nums) ->
  Forall (valid_update (length nums)) us ->
  exists t,
    (t0 ← __init__ fuel nums; run_updates t0 us) = Ok t /\
    __init__ fuel (ref_updates nums us) = Ok t.
Proof.
  intros Hne Hfuel Hvalid.
  destruct (reachable_Rep fuel nums us Hne Hfuel Hvalid)
    as (t0 & t & Hinit & Hrun & _ & HRep).
  assert (ref_updates nums us <> []) as Hne'.
  { intros Hnil. apply (f_equal length) in Hnil.
    rewrite length_ref_updates in Hnil. by destruct nums. }
  destruct (reachable_Rep fuel (ref_updates nums us) [] Hne')
    as (t1 & _ & Hinit1 & _ & HRep1 & _).
  { by rewrite length_ref_updates. }
  { constructor. }
  rewrite length_ref_updates in HRep1.
  exists t. rewrite Hinit. split; [done|].
  rewrite Hinit1. f_equal.
  destruct t as [r], t1 as [r1]. cbn in *.
  by rewrite (Rep_functional _ _ _ _ HRep1 _ HRep).
Qed.

Lemma updates_then_construct_witness :
  exists t,
    (t0 ← __init__ 3 [1; 3; 5]; run_updates t0 [(1, 2); (0, 4)]) = Ok t /\
    __init__ 3 (ref_updates [1; 3; 5] [(1, 2); (0, 4)]) = Ok t.
Proof.
  apply (updates_then_construct 3 [1; 3; 5] [(1, 2); (0, 4)]).
  - discriminate.
  - unfold enough_depth. simpl. lia.
  - repeat constructor; unfold valid_update; simpl; lia.
Defined.

(** X5. Valid updates of two different indices commute: either order leaves
    the same tree. *)
Theorem update_commute fuel nums us i v j w :
  nums <> [] -> enough_depth fuel (length nums) ->
  Forall (valid_update (length nums)) us ->
  valid_update (length nums) (i, v) ->
  valid_update (length nums) (j, w) ->
  i <> j ->
  exists t0 t t',
    __init__ fuel nums = Ok t0 /\ run_updates t0 us = Ok t /\
    run_updates t [(i, v); (j, w)] = Ok t' /\
    run_updates t [(j, w); (i, v)] = Ok t'.
Proof.
  intros Hne Hfuel Hvalid Hi Hj Hij.
  destruct (reachable_Rep fuel nums us Hne Hfuel Hvalid)
    as (t0 & t & Hinit & Hrun & _ & HRep).
  unfold valid_update in Hi, Hj. cbn in Hi, Hj.
  exists t0, t. eexists. repeat split; try done.
  cbn. do 2 f_equal.
  pose proof (update_Rep _ _ _ _ j w
                (update_Rep _ _ _ _ i v HRep Hi) Hj) as H1.
  pose proof (update_Rep _ _ _ _ i v
                (update_Rep _ _ _ _ j w HRep Hj) Hi) as H2.
  rewrite list_insert_insert_ne in H2 by lia.
  apply (Rep_functional _ _ _ _ H2 _ H1).
Qed.

Lemma update_commute_witness :
  exists t0 t t',
    __init__ 3 [1; 3; 5] = Ok t0 /\ run_updates t0 [(1, 2)] = Ok t /\
    run_updates t [(0, 7); (2, 9)] = Ok t' /\
    run_updates t [(2, 9); (0, 7)] = Ok t'.
Proof.
  apply (update_commute 3 [1; 3; 5] [(1, 2)] 0 7 2 9).
  - discriminate.
  - unfold enough_depth. simpl. lia.
  - repeat constructor; unfold valid_update; simpl; lia.
  - unfold valid_update. simpl. lia.
  - unfold valid_update. simpl. lia.
  - lia.
Defined.

Lemma update_overwrite_node index v w : forall t,
  _update (_update t index v) index w = _update t index w.
Proof.
  induction t as [s e x l r IHl IHr] using node_ind'.
  cbn [_update]. destruct ((s =? e) && (e =? index)) eqn:Hleaf.
  { cbn [_update]. by rewrite Hleaf. }
  destruct l as [ln|], r as [rn|]; cbn [_update value_or_0].
  - destruct (index <=? end_ ln) eqn:Hle; cbn [_update]; rewrite Hleaf.
    + rewrite update_end_, Hle, (IHl ln eq_refl). reflexivity.
    + rewrite Hle, (IHr rn eq_refl). reflexivity.
  - destruct (index <=? end_ ln) eqn:Hle; cbn [_update]; rewrite Hleaf.
    + rewrite update_end_, Hle, (IHl ln eq_refl). reflexivity.
    + rewrite Hle. reflexivity.
  - rewrite Hleaf, (IHr rn eq_refl). reflexivity.
  - rewrite Hleaf. reflexivity.
Qed.

(** X6. The later of two updates of the same index wins: the tree is the one
    that the second update alone leaves.  This holds for every tree and
    every index. *)
Theorem update_overwrite self index v w :
  (r ← update self index v; update r.2 index w) = update self index w.
Proof.
  unfold update. cbn. by rewrite update_overwrite_node.
Qed.

(** X7. Updating a valid index with the element it already holds leaves the
    tree as it was, node for node. *)
Theorem update_same_value fuel nums us index x :
  nums <> [] -> enough_depth fuel (length nums) ->
  Forall (valid_update (length nums)) us ->
  0 <= index ->
  current nums us index = Some x ->
  exists t0 t,
    __init__ fuel nums = Ok t0 /\ run_updates t0 us = Ok t /\
    update t index x = Ok (tt, t).
Proof.
  intros Hne Hfuel Hvalid Hidx Hcur.
  destruct (reachable_Rep fuel nums us Hne Hfuel Hvalid)
    as (t0 & t & Hinit & Hrun & _ & HRep).
  rewrite <- (ref_updates_current us nums index Hvalid Hidx) in Hcur.
  pose proof (lookup_lt_Some _ _ _ Hcur) as Hlt.
  rewrite length_ref_updates in Hlt.
  exists t0, t. repeat split; try done.
  unfold update. do 2 f_equal. destruct t as [r]. cbn in *. f_equal.
  pose proof (update_Rep _ _ _ _ index x HRep ltac:(lia)) as HRep'.
  rewrite (list_insert_id _ _ _ Hcur) in HRep'.
  apply (Rep_functional _ _ _ _ HRep' _ HRep).
Qed.

Lemma update_same_value_witness :
  exists t0 t,
    __init__ 3 [1; 3; 5] = Ok t0 /\ run_updates t0 [(1, 2)] = Ok t /\
    update t 1 2 = Ok (tt, t).
Proof.
  apply (update_same_value 3 [1; 3; 5] [(1, 2)] 1 2).
  - discriminate.
  - unfold enough_depth. simpl. lia.
  - repeat constructor; unfold valid_update; simpl; lia.
  - lia.
  - reflexivity.
Defined.

(** ** [update] with an index outside the tree *)

(** X8. An index above [n-1] is handled exactly as a write of 0 to the last
    index, and an index below 0 exactly as a write of 0 to index 0; the
    value passed is ignored. *)
Theorem update_out_of_range fuel nums us index new_value :
  nums <> [] -> enough_depth fuel (length nums) ->
  Forall (valid_update (length nums)) us ->
  ~ valid_update (length nums) (index, new_value) ->
  exists t0 t,
    __init__ fuel nums = Ok t0 /\ run_updates t0 us = Ok t /\
    update t index new_value
    = update t (if index <? 0 then 0 else Z.of_nat (length nums) - 1) 0.
Proof.
  intros Hne Hfuel Hvalid Hout.
  destruct (reachable_Rep fuel nums us Hne Hfuel Hvalid)
    as (t0 & t & Hinit & Hrun & _ & HRep).
  unfold valid_update in Hout. cbn in Hout.
  exists t0, t. repeat split; try done.
  unfold update. do 3 f_equal.
  destruct (Z.ltb_spec index 0) as [Hneg|Hpos].
  - by eapply update_below.
  - eapply update_above; [done|lia].
Qed.

Lemma update_out_of_range_witness :
  exists t0 t,
    __init__ 3 [1; 2; 3] = Ok t0 /\ run_updates t0 [(1, 5)] = Ok t /\
    update t 5 7
    = update t (if 5 <? 0 then 0 else Z.of_nat (length [1; 2; 3]) - 1) 0.
Proof.
  apply (update_out_of_range 3 [1; 2; 3] [(1, 5)] 5 7).
  - discriminate.
  - unfold enough_depth. simpl. lia.
  - repeat constructor; unfold valid_update; simpl; lia.
  - unfold valid_update. simpl. lia.
Defined.

(** ** [_build] outside its intended use *)

(** X9. On an empty range, [start > end], the recursion of [_build] never
    reaches a leaf: whatever the recursion limit, the call ends in
    [RecursionError].  This is the call that [__init__] would make for
    the empty list without its guard. *)
Theorem build_empty_range nums : forall fuel s e,
  e < s -> _build fuel nums s e = Raise RecursionError.
Proof.
  induction fuel as [|fuel IH]; intros s e Hlt; [reflexivity|].
  cbn [_build]. destruct (Z.eqb_spec s e) as [|_]; [lia|].
  pose proof (Z.div_mod (s + e) 2 ltac:(lia)) as Hdm.
  pose proof (Z.mod_pos_bound (s + e) 2 ltac:(lia)) as Hm.
  rewrite (IH s ((s + e) `div` 2)) by lia. reflexivity.
Qed.

Lemma build_empty_range_witness :
  _build 1000 [] 0 (Z.of_nat (length (@nil Z)) - 1) = Raise RecursionError.
Proof. apply (build_empty_range [] 1000 0 (-1)). lia. Defined.




(** X11. A range that starts inside or after the list and ends beyond its last
    index makes [_build] end in [IndexError]. *)
Theorem build_beyond_list nums : forall fuel s e,
  0 <= s <= e -> Z.of_nat (length nums) <= e ->
  e - s + 1 <= 2 ^ (Z.of_nat fuel - 1) ->
  _build fuel nums s e = Raise IndexError.
Proof.
  induction fuel as [|fuel IH]; intros s e Hse He Hfuel.
  { rewrite Z.pow_neg_r in Hfuel; lia. }
  cbn [_build]. destruct (Z.eqb_spec s e) as [<-|Hne].
  - unfold getitem.
    assert ((s <? 0) = false) as Hneg by (apply Z.ltb_ge; lia).
    rewrite Hneg. cbv zeta. rewrite Hneg.
    rewrite (lookup_ge_None_2 nums (Z.to_nat s)) by lia. reflexivity.
  - pose proof (mid_bounds s e ltac:(lia)) as Hmid.
    pose proof (Z.div_mod (s + e) 2 ltac:(lia)) as Hdm.
    pose proof (Z.mod_pos_bound (s + e) 2 ltac:(lia)) as Hm.
    replace (Z.of_nat (S fuel) - 1) with (Z.of_nat fuel) in Hfuel by lia.
    destruct fuel as [|fuel']; [cbn in Hfuel; lia|].
    replace (Z.of_nat (S fuel')) with (Z.succ (Z.of_nat (S fuel') - 1))
      in Hfuel by lia.
    rewrite Z.pow_succ_r in Hfuel by lia.
    destruct (Z.le_gt_cases (Z.of_nat (length nums)) ((s + e) `div` 2))
      as [Hout|Hin].
    + rewrite (IH s ((s + e) `div` 2)) by lia. reflexivity.
    + destruct (build_Rep nums (S fuel') s ((s + e) `div` 2))
        as (l & -> & _); [lia..|].
      rewrite (IH ((s + e) `div` 2 + 1) e) by lia. reflexivity.
Qed.

Lemma build_beyond_list_witness :
  _build 3 [1; 3; 5] 1 3 = Raise IndexError.
Proof.
  apply (build_beyond_list [1; 3; 5] 3 1 3); simpl; lia.
Defined.

(** ** The shape of the tree *)

Lemma Rep_node_count arr s e t :
  Rep arr s e t -> Z.of_nat (length (nodes t)) = 2 * (e - s + 1) - 1.
Proof.
  induction 1 as [i x Hi Hx|s e l r Hlt Hl IHl Hr IHr]; cbn [nodes new_node].
  - cbn. lia.
  - cbn [length]. rewrite length_app. lia.
Qed.

Lemma Rep_leaves arr s e t :
  Rep arr s e t -> leaves t = slice arr s e.
Proof.
  induction 1 as [i x Hi Hx|s e l r Hlt Hl IHl Hr IHr]; unfold slice in *.
  - cbn [leaves new_node].
    replace (Z.to_nat (i + 1 - i)) with 1%nat by lia.
    rewrite (drop_S _ _ _ Hx). reflexivity.
  - pose proof (mid_bounds s e Hlt) as Hmid.
    destruct (Rep_bounds _ _ _ _ Hl) as (_ & _ & Hs & _).
    cbn [leaves]. rewrite IHl, IHr.
    set (m := (s + e) `div` 2) in *.
    replace (Z.to_nat (m + 1)) with (Z.to_nat s + Z.to_nat (m + 1 - s))%nat
      by lia.
    rewrite <- drop_drop, take_take_drop. f_equal. lia.
Qed.

Lemma Rep_height arr s e t :
  Rep arr s e t ->
  2 ^ (Z.of_nat (height t) - 2) < e - s + 1 <= 2 ^ (Z.of_nat (height t) - 1).
Proof.
  induction 1 as [i x Hi Hx|s e l r Hlt Hl IHl Hr IHr].
  - cbn. lia.
  - pose proof (mid_bounds s e Hlt) as Hmid.
    pose proof (Z.div_mod (s + e) 2 ltac:(lia)) as Hdm.
    pose proof (Z.mod_pos_bound (s + e) 2 ltac:(lia)) as Hm.
    cbn [height].
    set (m := (s + e) `div` 2) in *.
    set (hl := height l) in *. set (hr := height r) in *.
    assert (forall h : nat, (1 <= h)%nat ->
              (h = 1%nat /\ 2 ^ (Z.of_nat h - 1) = 1) \/
              2 ^ (Z.of_nat h - 1) = 2 * 2 ^ (Z.of_nat h - 2)) as Hpow.
    { intros h Hh. destruct (Nat.eq_dec h 1%nat) as [->|Hh1]; [by left|right].
      replace (Z.of_nat h - 1) with (Z.succ (Z.of_nat h - 2)) by lia.
      apply Z.pow_succ_r. lia. }
    assert (forall a b : nat, (1 <= a <= b)%nat ->
              2 ^ (Z.of_nat a - 1) <= 2 ^ (Z.of_nat b - 1)) as Hmono.
    { intros a b Hab. apply Z.pow_le_mono_r; lia. }
    assert (1 <= hl)%nat as Hhl by (subst hl; destruct l; cbn; lia).
    assert (1 <= hr)%nat as Hhr by (subst hr; destruct r; cbn; lia).
    replace (Z.of_nat (S (hl `max` hr)) - 2)
      with (Z.of_nat (hl `max` hr) - 1) by lia.
    replace (Z.of_nat (S (hl `max` hr)) - 1)
      with (Z.succ (Z.of_nat (hl `max` hr) - 1)) by lia.
    rewrite Z.pow_succ_r by lia.
    pose proof (Hmono hl (hl `max` hr)%nat ltac:(lia)) as Hml.
    pose proof (Hmono hr (hl `max` hr)%nat ltac:(lia)) as Hmr.
    split; [|lia].
    destruct (Nat.max_spec hl hr) as [[_ ->]|[_ ->]].
    + destruct (Hpow hr Hhr) as [[_ H1]|H2]; lia.
    + destruct (Hpow hl Hhl) as [[_ H1]|H2]; lia.
Qed.

Lemma update_path_height index : forall t,
  (length (update_path t index) < height t)%nat.
Proof.
  induction t as [s e v l r IHl IHr] using node_ind'.
  cbn [update_path height].
  destruct ((s =? e) && (e =? index)); [cbn; lia|].
  destruct l as [ln|], r as [rn|];
    try destruct (index <=? end_ ln); cbn [length];
    try pose proof (IHl ln eq_refl); try pose proof (IHr rn eq_refl); lia.
Qed.

(** X13. The tree over [n] elements has [2n - 1] nodes, before and after any
    sequence of valid updates. *)
Theorem tree_node_count fuel nums us :
  nums <> [] -> enough_depth fuel (length nums) ->
  Forall (valid_update (length nums)) us ->
  exists t0 t,
    __init__ fuel nums = Ok t0 /\ run_updates t0 us = Ok t /\
    length (nodes (root t)) = (2 * length nums - 1)%nat.
Proof.
  intros Hne Hfuel Hvalid.
  destruct (reachable_Rep fuel nums us Hne Hfuel Hvalid)
    as (t0 & t & Hinit & Hrun & _ & HRep).
  exists t0, t. repeat split; try done.
  pose proof (Rep_node_count _ _ _ _ HRep). lia.
Qed.

Lemma tree_node_count_witness :
  exists t0 t,
    __init__ 3 [1; 3; 5] = Ok t0 /\ run_updates t0 [(1, 2)] = Ok t /\
    length (nodes (root t)) = (2 * length [1; 3; 5] - 1)%nat.
Proof.
  apply (tree_node_count 3 [1; 3; 5] [(1, 2)]).
  - discriminate.
  - unfold enough_depth. simpl. lia.
  - repeat constructor; unfold valid_update; simpl; lia.
Defined.

(** X14. Read from left to right, the leaves of the constructed tree hold the
    input sequence, and after valid updates the current elements. *)
Theorem tree_leaves fuel nums us :
  nums <> [] -> enough_depth fuel (length nums) ->
  Forall (valid_update (length nums)) us ->
  exists t0 t,
    __init__ fuel nums = Ok t0 /\ run_updates t0 us = Ok t /\
    leaves (root t0) = nums /\
    leaves (root t) = ref_updates nums us.
Proof.
  intros Hne Hfuel Hvalid.
  destruct (reachable_Rep fuel nums us Hne Hfuel Hvalid)
    as (t0 & t & Hinit & Hrun & HRep0 & HRep).
  exists t0, t. repeat split; try done.
  - rewrite (Rep_leaves _ _ _ _ HRep0). unfold slice.
    rewrite drop_0. apply firstn_all2. lia.
  - rewrite (Rep_leaves _ _ _ _ HRep). unfold slice.
    rewrite drop_0. apply firstn_all2. rewrite length_ref_updates. lia.
Qed.

Lemma tree_leaves_witness :
  exists t0 t,
    __init__ 3 [1; 3; 5] = Ok t0 /\ run_updates t0 [(1, 2); (0, 4)] = Ok t /\
    leaves (root t0) = [1; 3; 5] /\
    leaves (root t) = ref_updates [1; 3; 5] [(1, 2); (0, 4)].
Proof.
  apply (tree_leaves 3 [1; 3; 5] [(1, 2); (0, 4)]).
  - discriminate.
  - unfold enough_depth. simpl. lia.
  - repeat constructor; unfold valid_update; simpl; lia.
Defined.

(** X15. The tree is balanced: its height [h] over [n] elements satisfies
    [2^(h-2) < n <= 2^(h-1)], that is, [h] is one more than the binary
    logarithm of [n], rounded up. *)
Theorem tree_height fuel nums us :
  nums <> [] -> enough_depth fuel (length nums) ->
  Forall (valid_update (length nums)) us ->
  exists t0 t,
    __init__ fuel nums = Ok t0 /\ run_updates t0 us = Ok t /\
    2 ^ (Z.of_nat (height (root t)) - 2) < Z.of_nat (length nums)
      <= 2 ^ (Z.of_nat (height (root t)) - 1).
Proof.
  intros Hne Hfuel Hvalid.
  destruct (reachable_Rep fuel nums us Hne Hfuel Hvalid)
    as (t0 & t & Hinit & Hrun & _ & HRep).
  exists t0, t. split; [done|]. split; [done|].
  pose proof (Rep_height _ _ _ _ HRep). lia.
Qed.

Lemma tree_height_witness :
  exists t0 t,
    __init__ 4 [1; 3; 5; 7; 9] = Ok t0 /\ run_updates t0 [(1, 2)] = Ok t /\
    2 ^ (Z.of_nat (height (root t)) - 2) < Z.of_nat (length [1; 3; 5; 7; 9])
      <= 2 ^ (Z.of_nat (height (root t)) - 1).
Proof.
  apply (tree_height 4 [1; 3; 5; 7; 9] [(1, 2)]).
  - discriminate.
  - unfold enough_depth. simpl. lia.
  - repeat constructor; unfold valid_update; simpl; lia.
Defined.

(** X16. [update] descends through fewer than [log2 n + 1] child links,
    whatever the index: with [k] links followed, [2^(k-1) < n]. *)
Theorem update_path_logarithmic fuel nums us index :
  nums <> [] -> enough_depth fuel (length nums) ->
  Forall (valid_update (length nums)) us ->
  exists t0 t,
    __init__ fuel nums = Ok t0 /\ run_updates t0 us = Ok t /\
    2 ^ (Z.of_nat (length (update_path (root t) index)) - 1)
    < Z.of_nat (length nums).
Proof.
  intros Hne Hfuel Hvalid.
  destruct (reachable_Rep fuel nums us Hne Hfuel Hvalid)
    as (t0 & t & Hinit & Hrun & _ & HRep).
  exists t0, t. split; [done|]. split; [done|].
  pose proof (Rep_height _ _ _ _ HRep) as [Hlow _].
  pose proof (update_path_height index (root t)) as Hlen.
  eapply Z.le_lt_trans; [|replace (Z.of_nat (length nums))
    with (Z.of_nat (length nums) - 1 - 0 + 1) by lia; exact Hlow].
  destruct (length (update_path (root t) index)) as [|k].
  - rewrite Z.pow_neg_r by lia. apply Z.pow_nonneg. lia.
  - apply Z.pow_le_mono_r; lia.
Qed.

Lemma update_path_logarithmic_witness :
  exists t0 t,
    __init__ 4 [1; 3; 5; 7; 9] = Ok t0 /\ run_updates t0 [(1, 2)] = Ok t /\
    2 ^ (Z.of_nat (length (update_path (root t) 1)) - 1)
    < Z.of_nat (length [1; 3; 5; 7; 9]).
Proof.
  apply (update_path_logarithmic 4 [1; 3; 5; 7; 9] [(1, 2)] 1).
  - discriminate.
  - unfold enough_depth. simpl. lia.
  - repeat constructor; unfold valid_update; simpl; lia.
Defined.

(** X12. [_build] on any range inside the list returns a tree over exactly
    that range: its root carries the range and the sum of the slice, and
    its leaves are the slice. *)
Theorem build_subrange fuel nums s e :
  0 <= s <= e -> e < Z.of_nat (length nums) ->
  e - s + 1 <= 2 ^ (Z.of_nat fuel - 1) ->
  exists t,
    _build fuel nums s e = Ok t /\
    start t = s /\ end_ t = e /\
    value t = sum_list_Z (slice nums s e) /\
    leaves t = slice nums s e.
Proof.
  intros Hse He Hfuel.
  destruct (build_Rep nums fuel s e Hse He Hfuel) as (t & Hbuild & HRep).
  destruct (Rep_bounds _ _ _ _ HRep) as (Hs & He' & _).
  exists t. repeat split; try done.
  - rewrite (Rep_value _ _ _ _ HRep). apply range_sum_slice. lia.
  - by apply Rep_leaves.
Qed.

Lemma build_subrange_witness :
  exists t,
    _build 2 [1; 3; 5; 7; 9] 2 3 = Ok t /\
    start t = 2 /\ end_ t = 3 /\
    value t = sum_list_Z (slice [1; 3; 5; 7; 9] 2 3) /\
    leaves t = slice [1; 3; 5; 7; 9] 2 3.
Proof.
  apply (build_subrange 2 [1; 3; 5; 7; 9] 2 3); simpl; lia.
Defined.
